(** * redisearch-go: the schema builder ([redisearch/schema.go])

    A shallow embedding of the index-schema model of the client: the
    field constructors are pure functions on records; [NewSchema] and
    [AddField] work on a [*Schema], so they are run in a small state and
    panic monad over a Go heap that holds the [Schema] structs and the
    backing arrays of their [Fields] slices. *)

From Stdlib Require Import ZArith.
From stdpp Require Import gmap list strings.

Open Scope string_scope.
Open Scope list_scope.

(** ** Data model *)

(** [type FieldType int] with its four [iota] constants. *)
Inductive FieldType : Set :=
  | TextField
  | NumericField
  | GeoField
  | TagField.

(** The integer behind each constant ([TextField FieldType = iota], ...). *)
Definition FieldType_iota (t : FieldType) : Z :=
  match t with
  | TextField => 0
  | NumericField => 1
  | GeoField => 2
  | TagField => 3
  end.

(** [[]string]: the builder only carries a stop-word list around, so the
    slice is kept as its contents, [None] being the nil slice. *)
Record Options : Type := {
  NoSave : bool;
  NoFieldFlags : bool;
  NoFrequencies : bool;
  NoOffsetVectors : bool;
  Stopwords : option (list string)
}.

Definition DefaultOptions : Options :=
  {| NoSave := false;
     NoFieldFlags := false;
     NoFrequencies := false;
     NoOffsetVectors := false;
     Stopwords := None |}.

(** What Go leaves in an [Options] that a composite literal does not
    mention. *)
Definition zero_Options : Options :=
  {| NoSave := false;
     NoFieldFlags := false;
     NoFrequencies := false;
     NoOffsetVectors := false;
     Stopwords := None |}.

(** A [float32] is the 32 bits of its IEEE-754 encoding; the builder
    stores weights and never computes with them. *)
Definition float32 : Type := Z.

Definition float32_zero : float32 := 0%Z.

(** [2.0] as a [float32]: sign 0, exponent 128, mantissa 0. *)
Definition float32_two : float32 := 0x40000000%Z.

Record TextFieldOptions : Type := {
  Text_Weight : float32;
  Text_Sortable : bool;
  Text_NoStem : bool;
  Text_NoIndex : bool
}.

Record TagFieldOptions : Type := {
  Tag_Separator : Byte.byte;
  Tag_NoIndex : bool;
  Tag_Sortable : bool
}.

Record NumericFieldOptions : Type := {
  Numeric_Sortable : bool;
  Numeric_NoIndex : bool
}.

(** The [interface{}] slot of a [Field]: nil, or a value tagged with its
    dynamic type. The dynamic types are the option structs this package
    declares. *)
Inductive any : Type :=
  | any_nil
  | any_TextFieldOptions (o : TextFieldOptions)
  | any_TagFieldOptions (o : TagFieldOptions)
  | any_NumericFieldOptions (o : NumericFieldOptions).

Record Field : Type := {
  Field_Name : string;
  Field_Type : FieldType;
  Field_Sortable : bool;
  Field_Options : any
}.

Definition zero_Field : Field :=
  {| Field_Name := EmptyString;
     Field_Type := TextField;
     Field_Sortable := false;
     Field_Options := any_nil |}.

(** [f.Options = v] on a local copy of [f]. *)
Definition set_Field_Options (f : Field) (v : any) : Field :=
  {| Field_Name := Field_Name f;
     Field_Type := Field_Type f;
     Field_Sortable := Field_Sortable f;
     Field_Options := v |}.

(** The byte [','] . *)
Definition comma : Byte.byte := Byte.x2c.

(** ** Field constructors *)

Definition NewTextField (name : string) : Field :=
  {| Field_Name := name;
     Field_Type := TextField;
     Field_Sortable := false;
     Field_Options := any_nil |}.

Definition NewTextFieldOptions (name : string) (opts : TextFieldOptions) : Field :=
  let f := NewTextField name in
  let f := set_Field_Options f (any_TextFieldOptions opts) in
  f.

Definition NewSortableTextField (name : string) (weight : float32) : Field :=
  NewTextFieldOptions name
    {| Text_Weight := weight;
       Text_Sortable := true;
       Text_NoStem := false;
       Text_NoIndex := false |}.

Definition NewTagField (name : string) : Field :=
  {| Field_Name := name;
     Field_Type := TagField;
     Field_Sortable := false;
     Field_Options :=
       any_TagFieldOptions
         {| Tag_Separator := comma; Tag_NoIndex := false; Tag_Sortable := false |} |}.

Definition NewTagFieldOptions (name : string) (opts : TagFieldOptions) : Field :=
  {| Field_Name := name;
     Field_Type := TagField;
     Field_Sortable := false;
     Field_Options := any_TagFieldOptions opts |}.

Definition NewNumericField (name : string) : Field :=
  {| Field_Name := name;
     Field_Type := NumericField;
     Field_Sortable := false;
     Field_Options := any_nil |}.

Definition NewNumericFieldOptions (name : string) (options : NumericFieldOptions) : Field :=
  let f := NewNumericField name in
  let f := set_Field_Options f (any_NumericFieldOptions options) in
  f.

Definition NewSortableNumericField (name : string) : Field :=
  let f := NewNumericField name in
  let f :=
    set_Field_Options f
      (any_NumericFieldOptions {| Numeric_Sortable := true; Numeric_NoIndex := false |}) in
  f.

(** ** The Go heap *)

Definition loc : Set := positive.

(** A slice header: backing array, offset of the first element in it,
    length and capacity. *)
Record slice : Set := {
  sl_array : loc;
  sl_off : nat;
  sl_len : nat;
  sl_cap : nat
}.

(** [Fields []Field] is [None] for the nil slice. *)
Record Schema : Type := {
  Schema_Fields : option slice;
  Schema_Options : Options
}.

Record heap : Type := {
  schemas : gmap loc Schema;
  arrays : gmap loc (list Field)
}.

Definition empty_heap : heap := {| schemas := ∅; arrays := ∅ |}.

(** A [*Schema]: [None] is the nil pointer. *)
Definition ptr : Set := option loc.

Inductive panic : Set :=
  | nil_dereference
  | index_out_of_range.

(** A call returns a value and the heap it leaves, or panics. [Stuck]
    marks a read through a reference the heap does not hold, which no Go
    execution reaches. *)
Inductive outcome (A : Type) : Type :=
  | Returns (a : A) (h : heap)
  | Panics (p : panic)
  | Stuck.

Arguments Returns {A} a h.
Arguments Panics {A} p.
Arguments Stuck {A}.

Definition go (A : Type) : Type := heap -> outcome A.

Definition ret {A : Type} (a : A) : go A := fun h => Returns a h.

Definition bind {A B : Type} (c : go A) (k : A -> go B) : go B :=
  fun h =>
    match c h with
    | Returns a h' => k a h'
    | Panics p => Panics p
    | Stuck => Stuck
    end.

Notation "x <- c ;; k" := (bind c (fun x => k))
  (at level 100, c at next level, right associativity).
Notation "c ;;; k" := (bind c (fun _ => k))
  (at level 100, right associativity).

(** *** Schema structs *)

Definition load_Schema (m : ptr) : go Schema :=
  fun h =>
    match m with
    | None => Panics nil_dereference
    | Some l =>
        match schemas h !! l with
        | Some s => Returns s h
        | None => Stuck
        end
    end.

Definition store_Schema (m : ptr) (s : Schema) : go unit :=
  fun h =>
    match m with
    | None => Panics nil_dereference
    | Some l =>
        match schemas h !! l with
        | Some _ => Returns tt {| schemas := <[l := s]> (schemas h); arrays := arrays h |}
        | None => Stuck
        end
    end.

(** [&Schema{...}]: a struct at an address not in use. *)
Definition new_Schema (s : Schema) : go ptr :=
  fun h =>
    let l := fresh (dom (schemas h)) in
    Returns (Some l) {| schemas := <[l := s]> (schemas h); arrays := arrays h |}.

(** [m.Fields] read and written through the pointer. *)
Definition load_Fields (m : ptr) : go (option slice) :=
  s <- load_Schema m ;;
  ret (Schema_Fields s).

Definition store_Fields (m : ptr) (fs : option slice) : go unit :=
  s <- load_Schema m ;;
  store_Schema m {| Schema_Fields := fs; Schema_Options := Schema_Options s |}.

(** *** Backing arrays and slices *)

Definition load_array (l : loc) : go (list Field) :=
  fun h =>
    match arrays h !! l with
    | Some a => Returns a h
    | None => Stuck
    end.

Definition new_array (a : list Field) : go loc :=
  fun h =>
    let l := fresh (dom (arrays h)) in
    Returns l {| schemas := schemas h; arrays := <[l := a]> (arrays h) |}.

(** Writes one cell of a backing array. *)
Definition store_cell (l : loc) (i : nat) (f : Field) : go unit :=
  fun h =>
    match arrays h !! l with
    | Some a =>
        if decide (i < length a)
        then Returns tt {| schemas := schemas h; arrays := <[l := <[i := f]> a]> (arrays h) |}
        else Stuck
    | None => Stuck
    end.

(** The elements a slice shows: [len] cells of its array from [off]. *)
Definition slice_elems (sl : option slice) (h : heap) : option (list Field) :=
  match sl with
  | None => Some []
  | Some s =>
      match arrays h !! sl_array s with
      | Some a => Some (take (sl_len s) (drop (sl_off s) a))
      | None => None
      end
  end.

(** A slice header fits the heap: its array is there and holds the
    whole capacity. *)
Definition slice_ok (h : heap) (sl : option slice) : Prop :=
  match sl with
  | None => True
  | Some s =>
      match arrays h !! sl_array s with
      | Some a => sl_len s <= sl_cap s /\ sl_off s + sl_cap s <= length a
      | None => False
      end
  end.

(** [[]Field{}]: a slice that is not nil, of length and capacity 0. *)
Definition empty_slice : go (option slice) :=
  l <- new_array [] ;;
  ret (Some {| sl_array := l; sl_off := 0; sl_len := 0; sl_cap := 0 |}).

Section Builder.

(** The language leaves open how much room a grown slice gets beyond
    what is asked for: [spare c n] is the extra capacity when a slice
    of capacity [c] grows to hold [n] elements. *)
Variable spare : nat -> nat -> nat.

(** The builtin [append(sl, f)] for one element. *)
Definition append (sl : option slice) (f : Field) : go (option slice) :=
  let grow (old : list Field) (c : nat) : go (option slice) :=
    let n := length old + 1 in
    let c' := n + spare c n in
    l <- new_array (old ++ f :: replicate (c' - n) zero_Field) ;;
    ret (Some {| sl_array := l; sl_off := 0; sl_len := n; sl_cap := c' |}) in
  match sl with
  | None => grow [] 0
  | Some s =>
      if decide (sl_len s < sl_cap s)
      then
        store_cell (sl_array s) (sl_off s + sl_len s) f ;;;
        ret (Some {| sl_array := sl_array s;
                     sl_off := sl_off s;
                     sl_len := sl_len s + 1;
                     sl_cap := sl_cap s |})
      else
        a <- load_array (sl_array s) ;;
        grow (take (sl_len s) (drop (sl_off s) a)) (sl_cap s)
  end.

(** ** The schema builder *)

Definition NewSchema (opts : Options) : go ptr :=
  fs <- empty_slice ;;
  new_Schema {| Schema_Fields := fs; Schema_Options := zero_Options |}.

Definition AddField (m : ptr) (f : Field) : go ptr :=
  fs <- load_Fields m ;;
  (match fs with
   | None => e <- empty_slice ;; store_Fields m e
   | Some _ => ret tt
   end) ;;;
  fs <- load_Fields m ;;
  fs' <- append fs f ;;
  store_Fields m fs' ;;;
  ret m.

(** A chain [m.AddField(f1).AddField(f2)...]. *)
Fixpoint AddFields (m : ptr) (fs : list Field) : go ptr :=
  match fs with
  | [] => ret m
  | f :: fs' => m' <- AddField m f ;; AddFields m' fs'
  end.

(** [m.Fields[i]], with the bounds check of an index expression. *)
Definition Fields_index (m : ptr) (i : nat) : go Field :=
  fs <- load_Fields m ;;
  match fs with
  | None => fun _ => Panics index_out_of_range
  | Some s =>
      if decide (i < sl_len s)
      then
        a <- load_array (sl_array s) ;;
        match a !! (sl_off s + i) with
        | Some f => ret f
        | None => fun _ => Stuck
        end
      else fun _ => Panics index_out_of_range
  end.

End Builder.

(** ** What the specification asks of a field *)

(** The options variant the data model pairs with each type:
    [TextFieldOptions] for text, [TagFieldOptions] for tags,
    [NumericFieldOptions] for numerics, nothing for geo fields. *)
Definition variant_matches (t : FieldType) (o : any) : bool :=
  match t, o with
  | TextField, any_TextFieldOptions _ => true
  | TagField, any_TagFieldOptions _ => true
  | NumericField, any_NumericFieldOptions _ => true
  | GeoField, any_nil => true
  | _, _ => false
  end.

(** ** Sample inputs *)

(** Two growth policies: no room to spare, and doubling. *)
Definition exact_fit : nat -> nat -> nat := fun _ _ => 0.

Definition doubling : nat -> nat -> nat := fun c _ => c.

Definition sample_Options : Options :=
  {| NoSave := true;
     NoFieldFlags := false;
     NoFrequencies := true;
     NoOffsetVectors := false;
     Stopwords := Some ["the"; "a"] |}.

(** A schema at address 5 whose [Fields] are a window of length 1 and
    capacity 2 into a four-cell array. *)
Definition sample_slice : slice :=
  {| sl_array := 2%positive; sl_off := 1; sl_len := 1; sl_cap := 2 |}.

Definition sample_Schema : Schema :=
  {| Schema_Fields := Some sample_slice; Schema_Options := sample_Options |}.

Definition sample_heap : heap :=
  {| schemas := {[ 5%positive := sample_Schema ]};
     arrays :=
       {[ 2%positive := [zero_Field; NewTagField "tags"; zero_Field; zero_Field] ]} |}.

(** A zero [Schema] at address 7: nil [Fields]. *)
Definition blank_Schema : Schema :=
  {| Schema_Fields := None; Schema_Options := zero_Options |}.

Definition blank_heap : heap :=
  {| schemas := {[ 7%positive := blank_Schema ]}; arrays := ∅ |}.

(** Two schemas, at addresses 5 and 6, that are copies of one struct:
    both [Fields] headers are [sample_slice]. *)
Definition shared_heap : heap :=
  {| schemas := {[ 5%positive := sample_Schema; 6%positive := sample_Schema ]};
     arrays :=
       {[ 2%positive := [zero_Field; NewTagField "tags"; zero_Field; zero_Field] ]} |}.

(** The same with no room left: length and capacity are both 1. *)
Definition full_slice : slice :=
  {| sl_array := 2%positive; sl_off := 1; sl_len := 1; sl_cap := 1 |}.

Definition full_Schema : Schema :=
  {| Schema_Fields := Some full_slice; Schema_Options := sample_Options |}.

Definition full_shared_heap : heap :=
  {| schemas := {[ 5%positive := full_Schema; 6%positive := full_Schema ]};
     arrays :=
       {[ 2%positive := [zero_Field; NewTagField "tags"; zero_Field; zero_Field] ]} |}.

(** ** Heap consistency and the footprint of [append] *)

(** Every [Schema] struct of the heap has [Fields] that fit it. *)
Definition heap_ok (h : heap) : Prop :=
  map_Forall (fun (_ : loc) (s : Schema) => slice_ok h (Schema_Fields s)) (schemas h).

(** The one cell of an array already in the heap that [append(fs, f)]
    writes: the cell just past the end of [fs], when [fs] has room. *)
Definition writes_cell (fs : option slice) (a : loc) (i : nat) : Prop :=
  match fs with
  | Some sl => sl_len sl < sl_cap sl /\ a = sl_array sl /\ i = sl_off sl + sl_len sl
  | None => False
  end.

(** The header [append] returns on a slice with room. *)
Definition longer (s : slice) : slice :=
  {| sl_array := sl_array s; sl_off := sl_off s; sl_len := sl_len s + 1; sl_cap := sl_cap s |}.

(** The heaps a program gets to with [NewSchema] and [AddField] alone,
    from the empty one. *)
Inductive built (spare : nat -> nat -> nat) : heap -> Prop :=
  | built_empty : built spare empty_heap
  | built_NewSchema (h h' : heap) (opts : Options) (m : ptr) :
      built spare h ->
      NewSchema opts h = Returns m h' ->
      built spare h'
  | built_AddField (h h' : heap) (l : loc) (f : Field) (m : ptr) :
      built spare h ->
      is_Some (schemas h !! l) ->
      AddField spare (Some l) f h = Returns m h' ->
      built spare h'.

(** How a call may change the arrays that were in the heap: each one
    stays, with its length, and with every cell but those [W] marks. *)
Definition arrays_kept (W : loc -> nat -> Prop) (h h' : heap) : Prop :=
  forall (a : loc) (b : list Field),
    arrays h !! a = Some b ->
    exists b' : list Field,
      arrays h' !! a = Some b' /\
      length b' = length b /\
      forall i : nat, ~ W a i -> b' !! i = b !! i.

(** ** Facts on the heap primitives *)

Lemma fresh_array_unused (h : heap) : arrays h !! fresh (dom (arrays h)) = None.
Proof. apply not_elem_of_dom, is_fresh. Qed.

Lemma fresh_Schema_unused (h : heap) : schemas h !! fresh (dom (schemas h)) = None.
Proof. apply not_elem_of_dom, is_fresh. Qed.

(** An array put at an unused address leaves every slice that fitted
    the heap as it was. *)
Lemma slice_ok_new_array (h : heap) (a : list Field) (sl : option slice) :
  slice_ok h sl ->
  slice_ok {| schemas := schemas h; arrays := <[fresh (dom (arrays h)) := a]> (arrays h) |} sl.
Proof.
  destruct sl as [s|]; simpl; [|done].
  destruct (arrays h !! sl_array s) as [b|] eqn:Hb; [|done].
  intros Hs. rewrite lookup_insert_ne; [by rewrite Hb|].
  intros E. rewrite <- E, fresh_array_unused in Hb. discriminate.
Qed.

Lemma slice_elems_new_array (h : heap) (a : list Field) (sl : option slice) :
  slice_ok h sl ->
  slice_elems sl
    {| schemas := schemas h; arrays := <[fresh (dom (arrays h)) := a]> (arrays h) |}
  = slice_elems sl h.
Proof.
  destruct sl as [s|]; simpl; [|done].
  destruct (arrays h !! sl_array s) as [b|] eqn:Hb; [|done].
  intros _. rewrite lookup_insert_ne; [by rewrite Hb|].
  intros E. rewrite <- E, fresh_array_unused in Hb. discriminate.
Qed.

(** The window of a slice after the cell just past its end is written. *)
Lemma window_extend (a : list Field) (off len : nat) (f : Field) :
  off + len < length a ->
  take (len + 1) (drop off (<[off + len := f]> a)) = take len (drop off a) ++ [f].
Proof.
  intros Hlt.
  rewrite drop_insert_ge by lia.
  replace (off + len - off) with len by lia.
  replace (len + 1) with (S len) by lia.
  rewrite (take_S_r _ len f).
  - by rewrite take_insert_ge by lia.
  - apply list_lookup_insert_eq. rewrite length_drop. lia.
Qed.

(** The window of a freshly grown array. *)
Lemma window_grown (old : list Field) (f : Field) (k : nat) :
  take (length old + 1) (drop 0 (old ++ f :: replicate k zero_Field)) = old ++ [f].
Proof.
  rewrite drop_0.
  change (f :: replicate k zero_Field) with ([f] ++ replicate k zero_Field).
  rewrite app_assoc. apply take_app_length'.
  rewrite length_app. simpl. lia.
Qed.

Lemma empty_slice_returns (h : heap) :
  let l := fresh (dom (arrays h)) in
  empty_slice h =
    Returns (Some {| sl_array := l; sl_off := 0; sl_len := 0; sl_cap := 0 |})
      {| schemas := schemas h; arrays := <[l := []]> (arrays h) |}.
Proof. reflexivity. Qed.

Lemma bind_Returns {A B : Type} (c : go A) (k : A -> go B) (h h' : heap) (a : A) :
  c h = Returns a h' -> bind c k h = k a h'.
Proof. unfold bind. by intros ->. Qed.

Lemma load_Fields_returns (h : heap) (l : loc) (s : Schema) :
  schemas h !! l = Some s ->
  load_Fields (Some l) h = Returns (Schema_Fields s) h.
Proof. intros Hl. unfold load_Fields, bind, load_Schema. by rewrite Hl. Qed.

Lemma store_Fields_returns (h : heap) (l : loc) (s : Schema) (fs : option slice) :
  schemas h !! l = Some s ->
  store_Fields (Some l) fs h =
    Returns tt
      {| schemas :=
           <[l := {| Schema_Fields := fs; Schema_Options := Schema_Options s |}]> (schemas h);
         arrays := arrays h |}.
Proof.
  intros Hl. unfold store_Fields, bind, load_Schema.
  rewrite Hl. unfold store_Schema. by rewrite Hl.
Qed.

(** A slice that fits the heap shows exactly [len] elements. *)
Lemma slice_elems_length (h : heap) (s : slice) (xs : list Field) :
  slice_ok h (Some s) ->
  slice_elems (Some s) h = Some xs ->
  length xs = sl_len s.
Proof.
  simpl. destruct (arrays h !! sl_array s) as [a|]; [|done].
  intros [Hlen Hcap] [= <-]. rewrite length_take, length_drop. lia.
Qed.

(** [NewSchema] never looks at its argument: it allocates an empty
    array for [[]Field{}] and a struct whose [Options] are left zero. *)
Lemma NewSchema_returns (opts : Options) (h : heap) :
  let a := fresh (dom (arrays h)) in
  let l := fresh (dom (schemas h)) in
  let e := {| sl_array := a; sl_off := 0; sl_len := 0; sl_cap := 0 |} in
  NewSchema opts h =
    Returns (Some l)
      {| schemas :=
           <[l := {| Schema_Fields := Some e; Schema_Options := zero_Options |}]> (schemas h);
         arrays := <[a := []]> (arrays h) |}.
Proof. reflexivity. Qed.

(** The index expression [m.Fields[i]] reads the [i]-th element the
    slice shows. *)
Lemma Fields_index_returns (h : heap) (l : loc) (s : Schema) (ys : list Field)
    (i : nat) (f : Field) :
  schemas h !! l = Some s ->
  slice_ok h (Schema_Fields s) ->
  slice_elems (Schema_Fields s) h = Some ys ->
  ys !! i = Some f ->
  Fields_index (Some l) i h = Returns f h.
Proof.
  intros Hl Hok Hys Hi. unfold Fields_index.
  rewrite (bind_Returns _ _ _ _ _ (load_Fields_returns h l s Hl)).
  destruct (Schema_Fields s) as [sl|].
  - pose proof (slice_elems_length h sl ys Hok Hys) as Hlen.
    apply lookup_lt_Some in Hi as Hlt.
    rewrite decide_True by lia.
    simpl in Hys, Hok. unfold bind, load_array.
    destruct (arrays h !! sl_array sl) as [a|]; [|done].
    injection Hys as <-.
    rewrite lookup_take_lt, lookup_drop in Hi by lia.
    by rewrite Hi.
  - simpl in Hys. injection Hys as <-. by rewrite lookup_nil in Hi.
Qed.

Section Builder_facts.

Variable spare : nat -> nat -> nat.

(** [append] returns, for every slice that fits the heap, a slice
    that is not nil, fits the heap it leaves and shows the old
    elements followed by the new one; no [Schema] struct is touched. *)
Lemma append_returns (h : heap) (sl : option slice) (f : Field) (xs : list Field) :
  slice_ok h sl ->
  slice_elems sl h = Some xs ->
  exists (s' : slice) (h' : heap),
    append spare sl f h = Returns (Some s') h' /\
    schemas h' = schemas h /\
    slice_ok h' (Some s') /\
    slice_elems (Some s') h' = Some (xs ++ [f]).
Proof.
  destruct sl as [s|]; simpl.
  - destruct (arrays h !! sl_array s) as [a|] eqn:Ha; [|done].
    intros [Hlen Hcap] [= <-].
    unfold append. destruct (decide (sl_len s < sl_cap s)) as [Hroom|Hfull].
    + unfold bind, store_cell, ret. rewrite Ha.
      rewrite decide_True by lia.
      eexists _, _. split; [reflexivity|]. simpl.
      rewrite lookup_insert_eq, length_insert.
      repeat split; try lia.
      f_equal. apply window_extend. lia.
    + unfold bind, load_array, new_array, ret. rewrite Ha.
      eexists _, _. split; [reflexivity|]. simpl.
      rewrite lookup_insert_eq.
      rewrite length_app. simpl. rewrite length_replicate.
      repeat split; try lia.
      f_equal. apply window_grown.
  - intros _ [= <-]. unfold append, bind, new_array, ret.
    eexists _, _. split; [reflexivity|]. simpl.
    rewrite lookup_insert_eq. simpl. rewrite length_replicate.
    repeat split; try lia.
Qed.

(** [AddField] on a live [Schema] whose [Fields] fit the heap: the
    pointer comes back, the struct at it keeps its [Options] and gets
    a [Fields] slice that is not nil and shows one more element. *)
Lemma AddField_returns (h : heap) (l : loc) (s : Schema) (f : Field) (xs : list Field) :
  schemas h !! l = Some s ->
  slice_ok h (Schema_Fields s) ->
  slice_elems (Schema_Fields s) h = Some xs ->
  exists (s' : slice) (h' : heap),
    AddField spare (Some l) f h = Returns (Some l) h' /\
    schemas h' =
      <[l := {| Schema_Fields := Some s'; Schema_Options := Schema_Options s |}]> (schemas h) /\
    slice_ok h' (Some s') /\
    slice_elems (Some s') h' = Some (xs ++ [f]).
Proof.
  intros Hl Hok Hxs. unfold AddField.
  rewrite (bind_Returns _ _ _ _ _ (load_Fields_returns h l s Hl)).
  destruct (Schema_Fields s) as [sl|] eqn:Hfs.
  - unfold ret at 1. rewrite (bind_Returns _ _ h h tt eq_refl).
    rewrite (bind_Returns _ _ _ _ _ (load_Fields_returns h l s Hl)), Hfs.
    destruct (append_returns h (Some sl) f xs Hok Hxs) as (s' & h' & Hap & Hsch & Hok' & Hel').
    rewrite (bind_Returns _ _ _ _ _ Hap).
    assert (Hl' : schemas h' !! l = Some s) by (by rewrite Hsch).
    rewrite (bind_Returns _ _ _ _ _ (store_Fields_returns h' l s (Some s') Hl')).
    exists s'. eexists. split; [reflexivity|]. simpl.
    by rewrite Hsch.
  - simpl in Hxs. injection Hxs as <-.
    set (e := {| sl_array := fresh (dom (arrays h)); sl_off := 0; sl_len := 0; sl_cap := 0 |}).
    set (h0 := {| schemas := schemas h; arrays := <[fresh (dom (arrays h)) := []]> (arrays h) |}).
    set (s1 := {| Schema_Fields := Some e; Schema_Options := Schema_Options s |}).
    set (h1 := {| schemas := <[l := s1]> (schemas h); arrays := arrays h0 |}).
    assert (Hinit : (e0 <- empty_slice ;; store_Fields (Some l) e0) h = Returns tt h1).
    { rewrite (bind_Returns _ _ _ _ _ (empty_slice_returns h)).
      exact (store_Fields_returns h0 l s (Some e) Hl). }
    rewrite (bind_Returns _ _ _ _ _ Hinit).
    assert (Hl1 : schemas h1 !! l = Some s1) by apply lookup_insert_eq.
    rewrite (bind_Returns _ _ _ _ _ (load_Fields_returns h1 l s1 Hl1)).
    assert (Hok1 : slice_ok h1 (Some e)).
    { simpl. rewrite lookup_insert_eq. simpl. lia. }
    assert (Hel1 : slice_elems (Some e) h1 = Some []).
    { simpl. by rewrite lookup_insert_eq. }
    destruct (append_returns h1 (Some e) f [] Hok1 Hel1) as (s' & h' & Hap & Hsch & Hok' & Hel').
    simpl Schema_Fields. rewrite (bind_Returns _ _ _ _ _ Hap).
    assert (Hl' : schemas h' !! l = Some s1) by (by rewrite Hsch).
    rewrite (bind_Returns _ _ _ _ _ (store_Fields_returns h' l s1 (Some s') Hl')).
    exists s'. eexists. split; [reflexivity|]. simpl.
    rewrite Hsch. simpl. by rewrite insert_insert_eq.
Qed.

(** A chain of [AddField] calls, by induction on the fields added. *)
Lemma AddFields_returns (fs : list Field) :
  forall (h : heap) (l : loc) (s : Schema) (xs : list Field),
    schemas h !! l = Some s ->
    slice_ok h (Schema_Fields s) ->
    slice_elems (Schema_Fields s) h = Some xs ->
    exists (fs' : option slice) (h' : heap),
      AddFields spare (Some l) fs h = Returns (Some l) h' /\
      schemas h' =
        <[l := {| Schema_Fields := fs'; Schema_Options := Schema_Options s |}]> (schemas h) /\
      slice_ok h' fs' /\
      slice_elems fs' h' = Some (xs ++ fs).
Proof.
  induction fs as [|f fs IH]; intros h l s xs Hl Hok Hxs.
  - exists (Schema_Fields s), h. simpl. rewrite app_nil_r.
    repeat split; try done.
    symmetry. apply insert_id. rewrite Hl. by destruct s.
  - destruct (AddField_returns h l s f xs Hl Hok Hxs) as (s1 & h1 & Hrun & Hsch & Hok1 & Hel1).
    set (st := {| Schema_Fields := Some s1; Schema_Options := Schema_Options s |}) in *.
    assert (Hl1 : schemas h1 !! l = Some st) by (rewrite Hsch; apply lookup_insert_eq).
    destruct (IH h1 l st (xs ++ [f]) Hl1 Hok1 Hel1) as (fs' & h' & Hrun' & Hsch' & Hok' & Hel').
    exists fs', h'. simpl AddFields.
    rewrite (bind_Returns _ _ _ _ _ Hrun).
    repeat split; try done.
    + rewrite Hsch', Hsch. simpl. by rewrite insert_insert_eq.
    + by rewrite Hel', <- app_assoc.
Qed.

End Builder_facts.


Lemma slice_ok_elems (h : heap) (sl : option slice) :
  slice_ok h sl -> exists xs : list Field, slice_elems sl h = Some xs.
Proof.
  destruct sl as [s|]; simpl; [|by eexists].
  destruct (arrays h !! sl_array s); [by eexists|done].
Qed.

(** ** The field constructors *)

(** C5: for every name, [NewTagField] gives a field of type [TagField]
    whose options are a [TagFieldOptions] with the separator [','] and
    [NoIndex] false. *)
Theorem NewTagField_defaults (name : string) :
  Field_Type (NewTagField name) = TagField /\
  exists o : TagFieldOptions,
    Field_Options (NewTagField name) = any_TagFieldOptions o /\
    Tag_Separator o = comma /\
    Byte.to_N (Tag_Separator o) = 44%N /\
    Tag_NoIndex o = false.
Proof. split; [reflexivity|]. eexists. by repeat split. Qed.

(** C6: for every name and weight, [NewSortableTextField] gives a field
    of type [TextField] whose options are a [TextFieldOptions] with the
    given weight and [Sortable] true; so it is for ["title"] and 2.0. *)
Theorem NewSortableTextField_weight_sortable (name : string) (weight : float32) :
  (Field_Type (NewSortableTextField name weight) = TextField /\
   exists o : TextFieldOptions,
     Field_Options (NewSortableTextField name weight) = any_TextFieldOptions o /\
     Text_Weight o = weight /\
     Text_Sortable o = true) /\
  Field_Options (NewSortableTextField "title" float32_two) =
    any_TextFieldOptions
      {| Text_Weight := float32_two;
         Text_Sortable := true;
         Text_NoStem := false;
         Text_NoIndex := false |}.
Proof. repeat split. eexists. by repeat split. Qed.

(** C7: for every name, [NewSortableNumericField] gives a field of
    type [NumericField] whose options are a [NumericFieldOptions] with
    [Sortable] true and [NoIndex] false. *)
Theorem NewSortableNumericField_flags (name : string) :
  Field_Type (NewSortableNumericField name) = NumericField /\
  exists o : NumericFieldOptions,
    Field_Options (NewSortableNumericField name) = any_NumericFieldOptions o /\
    Numeric_Sortable o = true /\
    Numeric_NoIndex o = false.
Proof. split; [reflexivity|]. eexists. by repeat split. Qed.

(** C10: the fields [NewSortableTextField] and [NewSortableNumericField]
    return have their own [Sortable] member false, while the [Sortable]
    flag inside their options is true. *)
Theorem sortable_flags_out_of_sync (name : string) (weight : float32) :
  (Field_Sortable (NewSortableTextField name weight) = false /\
   exists o : TextFieldOptions,
     Field_Options (NewSortableTextField name weight) = any_TextFieldOptions o /\
     Text_Sortable o = true) /\
  (Field_Sortable (NewSortableNumericField name) = false /\
   exists o : NumericFieldOptions,
     Field_Options (NewSortableNumericField name) = any_NumericFieldOptions o /\
     Numeric_Sortable o = true).
Proof. split; (split; [reflexivity|]); eexists; by split. Qed.

(** C4, as the specification has it, fails: [NewTextField] and
    [NewNumericField] leave the options slot nil, which is not the
    variant of their type. *)
Lemma plain_constructors_leave_Options_nil :
  Field_Options (NewTextField "body") = any_nil /\
  variant_matches (Field_Type (NewTextField "body")) (Field_Options (NewTextField "body")) = false /\
  Field_Options (NewNumericField "price") = any_nil /\
  variant_matches (Field_Type (NewNumericField "price")) (Field_Options (NewNumericField "price"))
  = false.
Proof. by repeat split. Qed.

(** C4, amended: every constructor sets the given name, the type that
    goes with it and a false top-level [Sortable]; the six constructors
    that take or imply options store the variant of that type, holding
    the given parameters and the defaults, and [NewTextField] and
    [NewNumericField] store nil. *)
Theorem constructors_Type_and_Options
    (name : string) (weight : float32)
    (topts : TextFieldOptions) (gopts : TagFieldOptions) (nopts : NumericFieldOptions) :
  let shaped (f : Field) (t : FieldType) (o : any) :=
    Field_Name f = name /\ Field_Type f = t /\ Field_Sortable f = false /\
    Field_Options f = o /\ variant_matches (Field_Type f) (Field_Options f) = true in
  let bare (f : Field) (t : FieldType) :=
    Field_Name f = name /\ Field_Type f = t /\ Field_Sortable f = false /\
    Field_Options f = any_nil in
  bare (NewTextField name) TextField /\
  bare (NewNumericField name) NumericField /\
  shaped (NewTextFieldOptions name topts) TextField (any_TextFieldOptions topts) /\
  shaped (NewSortableTextField name weight) TextField
    (any_TextFieldOptions
       {| Text_Weight := weight; Text_Sortable := true;
          Text_NoStem := false; Text_NoIndex := false |}) /\
  shaped (NewTagField name) TagField
    (any_TagFieldOptions
       {| Tag_Separator := comma; Tag_NoIndex := false; Tag_Sortable := false |}) /\
  shaped (NewTagFieldOptions name gopts) TagField (any_TagFieldOptions gopts) /\
  shaped (NewNumericFieldOptions name nopts) NumericField (any_NumericFieldOptions nopts) /\
  shaped (NewSortableNumericField name) NumericField
    (any_NumericFieldOptions {| Numeric_Sortable := true; Numeric_NoIndex := false |}).
Proof. cbv zeta. by repeat split. Qed.

(** ** The schema builder *)

(** C1: for every [opts] and every heap, [NewSchema opts] returns a
    pointer to a new [Schema] whose [Fields] are a slice with no
    elements and whose [Options] are the zero value, all four flags
    false and no stop-word list; the call gives the same result for any
    two arguments. *)
Theorem NewSchema_ignores_opts (opts : Options) (h : heap) :
  (exists (l : loc) (e : slice) (h' : heap),
     NewSchema opts h = Returns (Some l) h' /\
     schemas h !! l = None /\
     schemas h' !! l =
       Some {| Schema_Fields := Some e;
               Schema_Options :=
                 {| NoSave := false; NoFieldFlags := false; NoFrequencies := false;
                    NoOffsetVectors := false; Stopwords := None |} |} /\
     slice_elems (Some e) h' = Some [] /\
     sl_len e = 0) /\
  (forall opts' : Options, NewSchema opts' h = NewSchema opts h).
Proof.
  split; [|reflexivity].
  rewrite NewSchema_returns. eexists _, _, _. split; [reflexivity|]. simpl.
  repeat split.
  - apply fresh_Schema_unused.
  - apply lookup_insert_eq.
  - by rewrite lookup_insert_eq.
  - reflexivity.
Qed.

(** C3: [AddField] on a [Schema] writes the struct behind the pointer
    and returns that pointer; the struct keeps its [Options], its
    [Fields] are a slice, never nil, that shows the old elements and
    then [f], and every other [Schema] struct of the heap is as it
    was. *)
Theorem AddField_in_place
    (spare : nat -> nat -> nat) (h : heap) (l : loc) (s : Schema) (f : Field)
    (xs : list Field) :
  schemas h !! l = Some s ->
  slice_ok h (Schema_Fields s) ->
  slice_elems (Schema_Fields s) h = Some xs ->
  exists (h' : heap) (s' : Schema),
    AddField spare (Some l) f h = Returns (Some l) h' /\
    schemas h' !! l = Some s' /\
    Schema_Options s' = Schema_Options s /\
    Schema_Fields s' <> None /\
    slice_elems (Schema_Fields s') h' = Some (xs ++ [f]) /\
    (forall l' : loc, l' <> l -> schemas h' !! l' = schemas h !! l') /\
    dom (schemas h') = dom (schemas h).
Proof.
  intros Hl Hok Hxs.
  destruct (AddField_returns spare h l s f xs Hl Hok Hxs) as (s1 & h' & Hrun & Hsch & _ & Hel).
  exists h'. eexists. split; [exact Hrun|]. rewrite Hsch.
  split; [apply lookup_insert_eq|]. simpl. repeat split; try done.
  - intros l' Hne. by apply lookup_insert_ne.
  - apply dom_insert_lookup_L. by rewrite Hl.
Qed.

Lemma AddField_in_place_witness :
  exists (h' : heap) (s' : Schema),
    AddField doubling (Some 7%positive) (NewTextField "body") blank_heap
    = Returns (Some 7%positive) h' /\
    schemas h' !! 7%positive = Some s' /\
    Schema_Options s' = Schema_Options blank_Schema /\
    Schema_Fields s' <> None /\
    slice_elems (Schema_Fields s') h' = Some ([] ++ [NewTextField "body"]) /\
    (forall l' : loc, l' <> 7%positive -> schemas h' !! l' = schemas blank_heap !! l') /\
    dom (schemas h') = dom (schemas blank_heap).
Proof.
  apply (AddField_in_place doubling blank_heap 7%positive blank_Schema (NewTextField "body") []).
  - reflexivity.
  - vm_compute. lia.
  - reflexivity.
Defined.

(** C2: a chain of [AddField] calls on a [Schema] leaves [Fields]
    showing the elements it had and then the added fields in call
    order; and
    [NewSchema(DefaultOptions).AddField(NewTextField("body")).AddField(NewNumericField("price"))]
    gives [Fields] of length 2, the text field ["body"] and then the
    numeric field ["price"]. *)
Theorem AddField_call_order (spare : nat -> nat -> nat) :
  (forall (h : heap) (l : loc) (s : Schema) (xs fs : list Field),
     schemas h !! l = Some s ->
     slice_ok h (Schema_Fields s) ->
     slice_elems (Schema_Fields s) h = Some xs ->
     exists (h' : heap) (s' : Schema),
       AddFields spare (Some l) fs h = Returns (Some l) h' /\
       schemas h' !! l = Some s' /\
       slice_elems (Schema_Fields s') h' = Some (xs ++ fs)) /\
  (forall h : heap,
     exists (l : loc) (h' : heap) (s' : Schema) (sl : slice),
       (m <- NewSchema DefaultOptions ;;
        m1 <- AddField spare m (NewTextField "body") ;;
        AddField spare m1 (NewNumericField "price")) h = Returns (Some l) h' /\
       schemas h' !! l = Some s' /\
       Schema_Fields s' = Some sl /\
       sl_len sl = 2 /\
       slice_elems (Some sl) h' =
         Some [ {| Field_Name := "body"; Field_Type := TextField;
                   Field_Sortable := false; Field_Options := any_nil |};
                {| Field_Name := "price"; Field_Type := NumericField;
                   Field_Sortable := false; Field_Options := any_nil |} ]).
Proof.
  split.
  - intros h l s xs fs Hl Hok Hxs.
    destruct (AddFields_returns spare fs h l s xs Hl Hok Hxs) as (fs' & h' & Hrun & Hsch & _ & Hel).
    exists h'. eexists. split; [exact Hrun|]. rewrite Hsch.
    split; [apply lookup_insert_eq|]. exact Hel.
  - intros h.
    rewrite (bind_Returns _ _ _ _ _ (NewSchema_returns DefaultOptions h)).
    set (l := fresh (dom (schemas h))).
    set (e := {| sl_array := fresh (dom (arrays h)); sl_off := 0; sl_len := 0; sl_cap := 0 |}).
    set (s0 := {| Schema_Fields := Some e; Schema_Options := zero_Options |}).
    set (h0 := {| schemas := <[l := s0]> (schemas h);
                  arrays := <[fresh (dom (arrays h)) := []]> (arrays h) |}).
    assert (Hl0 : schemas h0 !! l = Some s0) by apply lookup_insert_eq.
    assert (Hok0 : slice_ok h0 (Schema_Fields s0)).
    { simpl. rewrite lookup_insert_eq. simpl. lia. }
    assert (Hel0 : slice_elems (Schema_Fields s0) h0 = Some []).
    { simpl. by rewrite lookup_insert_eq. }
    destruct (AddFields_returns spare [NewTextField "body"; NewNumericField "price"]
                h0 l s0 [] Hl0 Hok0 Hel0) as (fs' & h' & Hrun & Hsch & Hok' & Hel').
    simpl in Hrun, Hel'.
    destruct fs' as [sl|]; [|discriminate].
    exists l, h'. eexists. exists sl.
    split.
    { rewrite <- Hrun. unfold bind, ret. simpl.
      destruct (AddField spare (Some l) (NewTextField "body") h0) as [m1 h1| |]; try done.
      by destruct (AddField spare m1 (NewNumericField "price") h1). }
    rewrite Hsch. split; [apply lookup_insert_eq|]. simpl.
    repeat split; try done.
    by rewrite <- (slice_elems_length h' sl _ Hok' Hel').
Qed.

Lemma AddField_call_order_witness :
  exists (h' : heap) (s' : Schema),
    AddFields doubling (Some 5%positive)
      [NewTextField "body"; NewNumericField "price"] sample_heap
    = Returns (Some 5%positive) h' /\
    schemas h' !! 5%positive = Some s' /\
    slice_elems (Schema_Fields s') h'
    = Some ([NewTagField "tags"] ++ [NewTextField "body"; NewNumericField "price"]).
Proof.
  apply (proj1 (AddField_call_order doubling) sample_heap 5%positive sample_Schema).
  - reflexivity.
  - vm_compute. lia.
  - reflexivity.
Defined.

(** C8: after a chain of [AddField] calls on a [Schema] that showed
    [xs], the index expression [Fields[length xs + i]] returns the
    [i]-th field passed in, every member as it was given. *)
Theorem AddField_read_back
    (spare : nat -> nat -> nat) (h : heap) (l : loc) (s : Schema)
    (xs fs : list Field) (i : nat) (f : Field) :
  schemas h !! l = Some s ->
  slice_ok h (Schema_Fields s) ->
  slice_elems (Schema_Fields s) h = Some xs ->
  fs !! i = Some f ->
  exists h' : heap,
    AddFields spare (Some l) fs h = Returns (Some l) h' /\
    Fields_index (Some l) (length xs + i) h' = Returns f h'.
Proof.
  intros Hl Hok Hxs Hi.
  destruct (AddFields_returns spare fs h l s xs Hl Hok Hxs) as (fs' & h' & Hrun & Hsch & Hok' & Hel).
  exists h'. split; [exact Hrun|].
  eapply Fields_index_returns.
  - rewrite Hsch. apply lookup_insert_eq.
  - exact Hok'.
  - exact Hel.
  - rewrite lookup_app_r by lia.
    by replace (length xs + i - length xs) with i by lia.
Qed.

Lemma AddField_read_back_witness :
  exists h' : heap,
    AddFields exact_fit (Some 5%positive)
      [NewSortableTextField "title" float32_two; NewTagField "tags"] sample_heap
    = Returns (Some 5%positive) h' /\
    Fields_index (Some 5%positive) (length [NewTagField "tags"] + 1) h'
    = Returns (NewTagField "tags") h'.
Proof.
  apply (AddField_read_back exact_fit sample_heap 5%positive sample_Schema
           [NewTagField "tags"]
           [NewSortableTextField "title" float32_two; NewTagField "tags"] 1).
  - reflexivity.
  - vm_compute. lia.
  - reflexivity.
  - reflexivity.
Defined.

(** C9, as the specification has it, fails: [AddField] through a nil
    [*Schema] reads [m.Fields] and panics; no result comes back. *)
Lemma AddField_nil_receiver_panics :
  AddField exact_fit None (NewTextField "body") empty_heap = Panics nil_dereference /\
  ~ exists (m : ptr) (h' : heap),
      AddField exact_fit None (NewTextField "body") empty_heap = Returns m h'.
Proof. split; [reflexivity|]. intros (m & h' & H). discriminate H. Qed.

(** C9, amended: [NewSchema] returns for every argument on every heap;
    every field constructor returns a field for every input, with the
    name and the options it was given, none of them checked; on a
    [Schema] that is not nil, [AddField] returns for every field and
    every chain of fields, whatever their names, types, options and
    number, and stores them all; on a nil receiver it panics. *)
Theorem builder_total_on_live_Schema (spare : nat -> nat -> nat) :
  (forall (opts : Options) (h : heap),
     exists (m : loc) (h' : heap), NewSchema opts h = Returns (Some m) h') /\
  (forall (name : string) (weight : float32)
          (topts : TextFieldOptions) (gopts : TagFieldOptions) (nopts : NumericFieldOptions),
     let returns (r : Field) (t : FieldType) (o : any) :=
       exists f : Field,
         r = f /\ Field_Name f = name /\ Field_Type f = t /\ Field_Options f = o in
     returns (NewTextField name) TextField any_nil /\
     returns (NewTextFieldOptions name topts) TextField (any_TextFieldOptions topts) /\
     returns (NewSortableTextField name weight) TextField
       (any_TextFieldOptions
          {| Text_Weight := weight; Text_Sortable := true;
             Text_NoStem := false; Text_NoIndex := false |}) /\
     returns (NewTagField name) TagField
       (any_TagFieldOptions
          {| Tag_Separator := comma; Tag_NoIndex := false; Tag_Sortable := false |}) /\
     returns (NewTagFieldOptions name gopts) TagField (any_TagFieldOptions gopts) /\
     returns (NewNumericField name) NumericField any_nil /\
     returns (NewNumericFieldOptions name nopts) NumericField (any_NumericFieldOptions nopts) /\
     returns (NewSortableNumericField name) NumericField
       (any_NumericFieldOptions {| Numeric_Sortable := true; Numeric_NoIndex := false |})) /\
  (forall (h : heap) (l : loc) (s : Schema) (f : Field) (fs : list Field),
     schemas h !! l = Some s ->
     slice_ok h (Schema_Fields s) ->
     (exists h' : heap, AddField spare (Some l) f h = Returns (Some l) h') /\
     (exists (h' : heap) (s' : Schema) (xs : list Field),
        AddFields spare (Some l) fs h = Returns (Some l) h' /\
        slice_elems (Schema_Fields s) h = Some xs /\
        schemas h' !! l = Some s' /\
        slice_elems (Schema_Fields s') h' = Some (xs ++ fs))) /\
  (forall (f : Field) (h : heap), AddField spare None f h = Panics nil_dereference).
Proof.
  split; [|split; [|split]].
  - intros opts h. rewrite NewSchema_returns. by eexists _, _.
  - intros name weight topts gopts nopts. cbv zeta.
    repeat split; by eexists.
  - intros h l s f fs Hl Hok.
    destruct (slice_ok_elems h _ Hok) as [xs Hxs]. split.
    + destruct (AddField_returns spare h l s f xs Hl Hok Hxs) as (s1 & h' & Hrun & _).
      by exists h'.
    + destruct (AddFields_returns spare fs h l s xs Hl Hok Hxs)
        as (fs' & h' & Hrun & Hsch & _ & Hel).
      exists h'. eexists. exists xs.
      split; [exact Hrun|]. split; [exact Hxs|].
      split; [rewrite Hsch; apply lookup_insert_eq|exact Hel].
  - reflexivity.
Qed.

Lemma builder_total_on_live_Schema_witness :
  (exists h' : heap,
     AddField doubling (Some 5%positive)
       {| Field_Name := EmptyString; Field_Type := GeoField; Field_Sortable := true;
          Field_Options := any_TagFieldOptions
            {| Tag_Separator := Byte.x00; Tag_NoIndex := true; Tag_Sortable := false |} |}
       sample_heap
     = Returns (Some 5%positive) h') /\
  (exists (h' : heap) (s' : Schema) (xs : list Field),
     AddFields doubling (Some 5%positive) [NewTagField "tags"; NewTextField "tags"] sample_heap
     = Returns (Some 5%positive) h' /\
     slice_elems (Schema_Fields sample_Schema) sample_heap = Some xs /\
     schemas h' !! 5%positive = Some s' /\
     slice_elems (Schema_Fields s') h'
     = Some (xs ++ [NewTagField "tags"; NewTextField "tags"])).
Proof.
  apply (proj1 (proj2 (proj2 (builder_total_on_live_Schema doubling)))
           sample_heap 5%positive sample_Schema).
  - reflexivity.
  - vm_compute. lia.
Defined.


(** ** The footprint of [append] and [AddField] *)

Lemma arrays_kept_new_array (W : loc -> nat -> Prop) (h : heap) (a : list Field) :
  arrays_kept W h
    {| schemas := schemas h; arrays := <[fresh (dom (arrays h)) := a]> (arrays h) |}.
Proof.
  intros a0 b Hb. exists b. simpl. split; [|done].
  rewrite lookup_insert_ne; [done|].
  intros E. rewrite <- E, fresh_array_unused in Hb. discriminate.
Qed.

Lemma arrays_kept_trans (W : loc -> nat -> Prop) (h1 h2 h3 : heap) :
  arrays_kept (fun _ _ => False) h1 h2 -> arrays_kept W h2 h3 -> arrays_kept W h1 h3.
Proof.
  intros H12 H23 a b Hb.
  destruct (H12 a b Hb) as (b2 & Hb2 & Hlen2 & Hcell2).
  destruct (H23 a b2 Hb2) as (b3 & Hb3 & Hlen3 & Hcell3).
  exists b3. split; [done|]. split; [congruence|].
  intros i Hi. rewrite Hcell3 by done. apply Hcell2. tauto.
Qed.

(** What a slice shows depends on the cells of its window only. *)
Lemma slice_elems_window (h h' : heap) (sl : slice) (b b' : list Field) :
  arrays h !! sl_array sl = Some b ->
  arrays h' !! sl_array sl = Some b' ->
  (forall i : nat, sl_off sl <= i < sl_off sl + sl_len sl -> b' !! i = b !! i) ->
  slice_elems (Some sl) h' = slice_elems (Some sl) h.
Proof.
  intros Hb Hb' Hcells. simpl. rewrite Hb, Hb'. f_equal.
  apply list_eq. intros i. rewrite !lookup_take.
  case_decide; [|done].
  rewrite !lookup_drop. apply Hcells. lia.
Qed.

Lemma slice_kept (W : loc -> nat -> Prop) (h h' : heap) (sl : slice) :
  arrays_kept W h h' ->
  slice_ok h (Some sl) ->
  (forall i : nat, sl_off sl <= i < sl_off sl + sl_len sl -> ~ W (sl_array sl) i) ->
  slice_ok h' (Some sl) /\ slice_elems (Some sl) h' = slice_elems (Some sl) h.
Proof.
  intros Hkept Hok Hout. simpl in Hok.
  destruct (arrays h !! sl_array sl) as [b|] eqn:Hb; [|done].
  destruct (Hkept _ _ Hb) as (b' & Hb' & Hlen & Hcells).
  split.
  - simpl. rewrite Hb'. lia.
  - apply (slice_elems_window h h' sl b b' Hb Hb'). intros i Hi. apply Hcells. by apply Hout.
Qed.

Lemma slice_ok_kept (W : loc -> nat -> Prop) (h h' : heap) (sl : option slice) :
  arrays_kept W h h' -> slice_ok h sl -> slice_ok h' sl.
Proof.
  intros Hkept. destruct sl as [s|]; simpl; [|done].
  destruct (arrays h !! sl_array s) as [b|] eqn:Hb; [|done].
  destruct (Hkept _ _ Hb) as (b' & -> & Hlen & _). lia.
Qed.

(** Where no cell is marked, the arrays are just as they were. *)
Lemma arrays_kept_same (W : loc -> nat -> Prop) (h h' : heap) (a : loc) (b : list Field) :
  arrays_kept W h h' ->
  (forall i : nat, ~ W a i) ->
  arrays h !! a = Some b ->
  arrays h' !! a = Some b.
Proof.
  intros Hkept HW Hb. destruct (Hkept a b Hb) as (b' & Hb' & _ & Hcells).
  rewrite Hb'. f_equal. apply list_eq. intros i. by apply Hcells.
Qed.

Section Footprint.

Variable spare : nat -> nat -> nat.

(** [append] on a slice that fits the heap: beside what
    [append_returns] says, a slice with room comes back one longer on
    the same array, any other on an array that was not in the heap;
    and of the arrays that were there [append] writes [writes_cell]
    at most. *)
Lemma append_effect (h : heap) (sl : option slice) (f : Field) (xs : list Field) :
  slice_ok h sl ->
  slice_elems sl h = Some xs ->
  exists (s' : slice) (h' : heap),
    append spare sl f h = Returns (Some s') h' /\
    schemas h' = schemas h /\
    slice_ok h' (Some s') /\
    slice_elems (Some s') h' = Some (xs ++ [f]) /\
    (forall s : slice, sl = Some s -> sl_len s < sl_cap s -> s' = longer s) /\
    ((forall s : slice, sl = Some s -> sl_cap s <= sl_len s) ->
     arrays h !! sl_array s' = None) /\
    arrays_kept (writes_cell sl) h h'.
Proof.
  destruct sl as [s|]; simpl.
  - destruct (arrays h !! sl_array s) as [a|] eqn:Ha; [|done].
    intros [Hlen Hcap] [= <-].
    unfold append. destruct (decide (sl_len s < sl_cap s)) as [Hroom|Hfull].
    + unfold bind, store_cell, ret. rewrite Ha.
      rewrite decide_True by lia.
      eexists _, _. split; [reflexivity|]. simpl.
      rewrite lookup_insert_eq, length_insert.
      split; [done|]. split; [lia|].
      split; [f_equal; apply window_extend; lia|].
      split; [by intros s0 [= <-] _|].
      split; [intros Hall; specialize (Hall s eq_refl); lia|].
      intros a0 b Hb. simpl. destruct (decide (a0 = sl_array s)) as [->|Hne].
      * rewrite Ha in Hb. injection Hb as <-.
        eexists. split; [apply lookup_insert_eq|].
        split; [apply length_insert|].
        intros i Hi. apply list_lookup_insert_ne. intros <-. apply Hi. by simpl.
      * exists b. by rewrite lookup_insert_ne.
    + unfold bind, load_array, new_array, ret. rewrite Ha.
      eexists _, _. split; [reflexivity|]. simpl.
      rewrite lookup_insert_eq.
      rewrite length_app. simpl. rewrite length_replicate.
      split; [done|]. split; [lia|].
      split; [f_equal; apply window_grown|].
      split; [intros s0 [= <-] Hroom; lia|].
      split; [intros _; apply fresh_array_unused|].
      apply arrays_kept_new_array.
  - intros _ [= <-]. unfold append, bind, new_array, ret.
    eexists _, _. split; [reflexivity|]. simpl.
    rewrite lookup_insert_eq. simpl. rewrite length_replicate.
    split; [done|]. split; [lia|].
    split; [done|].
    split; [by intros s0 [=]|].
    split; [intros _; apply fresh_array_unused|].
    apply arrays_kept_new_array.
Qed.

(** The same for [AddField]: the struct behind the pointer gets the new
    header and nothing else of the [Schema] structs changes. *)
Lemma AddField_effect (h : heap) (l : loc) (s : Schema) (f : Field) (xs : list Field) :
  schemas h !! l = Some s ->
  slice_ok h (Schema_Fields s) ->
  slice_elems (Schema_Fields s) h = Some xs ->
  exists (s' : slice) (h' : heap),
    AddField spare (Some l) f h = Returns (Some l) h' /\
    schemas h' =
      <[l := {| Schema_Fields := Some s'; Schema_Options := Schema_Options s |}]> (schemas h) /\
    slice_ok h' (Some s') /\
    slice_elems (Some s') h' = Some (xs ++ [f]) /\
    (forall sl : slice, Schema_Fields s = Some sl -> sl_len sl < sl_cap sl -> s' = longer sl) /\
    ((forall sl : slice, Schema_Fields s = Some sl -> sl_cap sl <= sl_len sl) ->
     arrays h !! sl_array s' = None) /\
    arrays_kept (writes_cell (Schema_Fields s)) h h'.
Proof.
  intros Hl Hok Hxs. unfold AddField.
  rewrite (bind_Returns _ _ _ _ _ (load_Fields_returns h l s Hl)).
  destruct (Schema_Fields s) as [sl|] eqn:Hfs.
  - unfold ret at 1. rewrite (bind_Returns _ _ h h tt eq_refl).
    rewrite (bind_Returns _ _ _ _ _ (load_Fields_returns h l s Hl)), Hfs.
    destruct (append_effect h (Some sl) f xs Hok Hxs)
      as (s' & h' & Hap & Hsch & Hok' & Hel & Hroom & Hfull & Hkept).
    rewrite (bind_Returns _ _ _ _ _ Hap).
    assert (Hl' : schemas h' !! l = Some s) by (by rewrite Hsch).
    rewrite (bind_Returns _ _ _ _ _ (store_Fields_returns h' l s (Some s') Hl')).
    exists s'. eexists. split; [reflexivity|]. simpl.
    by rewrite Hsch.
  - simpl in Hxs. injection Hxs as <-.
    set (a0 := fresh (dom (arrays h))).
    set (e := {| sl_array := a0; sl_off := 0; sl_len := 0; sl_cap := 0 |}).
    set (h0 := {| schemas := schemas h; arrays := <[a0 := []]> (arrays h) |}).
    set (s1 := {| Schema_Fields := Some e; Schema_Options := Schema_Options s |}).
    set (h1 := {| schemas := <[l := s1]> (schemas h); arrays := arrays h0 |}).
    assert (Hinit : (e0 <- empty_slice ;; store_Fields (Some l) e0) h = Returns tt h1).
    { rewrite (bind_Returns _ _ _ _ _ (empty_slice_returns h)).
      exact (store_Fields_returns h0 l s (Some e) Hl). }
    rewrite (bind_Returns _ _ _ _ _ Hinit).
    assert (Hl1 : schemas h1 !! l = Some s1) by apply lookup_insert_eq.
    rewrite (bind_Returns _ _ _ _ _ (load_Fields_returns h1 l s1 Hl1)).
    assert (Hok1 : slice_ok h1 (Some e)).
    { simpl. rewrite lookup_insert_eq. simpl. lia. }
    assert (Hel1 : slice_elems (Some e) h1 = Some []).
    { simpl. by rewrite lookup_insert_eq. }
    destruct (append_effect h1 (Some e) f [] Hok1 Hel1)
      as (s' & h' & Hap & Hsch & Hok' & Hel & _ & Hfull & Hkept).
    simpl Schema_Fields. rewrite (bind_Returns _ _ _ _ _ Hap).
    assert (Hl' : schemas h' !! l = Some s1) by (by rewrite Hsch).
    rewrite (bind_Returns _ _ _ _ _ (store_Fields_returns h' l s1 (Some s') Hl')).
    exists s'. eexists. split; [reflexivity|]. simpl.
    rewrite Hsch. simpl. rewrite insert_insert_eq.
    split; [done|]. split; [done|]. split; [done|].
    split; [by intros sl [=]|].
    split.
    + intros _.
      assert (Hnew : arrays h1 !! sl_array s' = None).
      { apply Hfull. intros s0 [= <-]. simpl. lia. }
      simpl in Hnew. destruct (decide (sl_array s' = a0)) as [E|Hne].
      * rewrite E, lookup_insert_eq in Hnew. discriminate.
      * by rewrite lookup_insert_ne in Hnew.
    + apply (arrays_kept_trans _ h h1 h').
      * apply (arrays_kept_new_array _ h []).
      * intros a b Hb. destruct (Hkept a b Hb) as (b' & Hb' & Hlen & Hcells).
        exists b'. repeat split; try done.
        intros i _. apply Hcells. simpl. lia.
Qed.

(** The array under the header [AddField] leaves is the one under the
    old header, or one that was not in the heap. *)
Lemma AddField_array_cases (h : heap) (s : Schema) (s' : slice) :
  (forall sl : slice, Schema_Fields s = Some sl -> sl_len sl < sl_cap sl -> s' = longer sl) ->
  ((forall sl : slice, Schema_Fields s = Some sl -> sl_cap sl <= sl_len sl) ->
   arrays h !! sl_array s' = None) ->
  (exists sl : slice, Schema_Fields s = Some sl /\ sl_array s' = sl_array sl) \/
  arrays h !! sl_array s' = None.
Proof.
  intros Hroom Hfull. destruct (Schema_Fields s) as [sl|].
  - destruct (decide (sl_len sl < sl_cap sl)) as [Hlt|Hge].
    + left. exists sl. split; [done|]. by rewrite (Hroom sl eq_refl Hlt).
    + right. apply Hfull. intros s0 [= <-]. lia.
  - right. apply Hfull. by intros s0 [=].
Qed.

(** A chain of [AddField] calls: what [AddFields_returns] says, and
    what the chain leaves alone. Arrays stay in the heap, the last
    header sits on the first one's array or on a new one, and a slice
    on another array shows what it showed. *)
Lemma AddFields_effect (fs : list Field) :
  forall (h : heap) (l : loc) (s : Schema) (xs : list Field),
    schemas h !! l = Some s ->
    slice_ok h (Schema_Fields s) ->
    slice_elems (Schema_Fields s) h = Some xs ->
    exists (fs' : option slice) (h' : heap),
      AddFields spare (Some l) fs h = Returns (Some l) h' /\
      schemas h' =
        <[l := {| Schema_Fields := fs'; Schema_Options := Schema_Options s |}]> (schemas h) /\
      slice_ok h' fs' /\
      slice_elems fs' h' = Some (xs ++ fs) /\
      (forall a : loc, is_Some (arrays h !! a) -> is_Some (arrays h' !! a)) /\
      (forall sl' : slice,
         fs' = Some sl' ->
         (exists sl : slice, Schema_Fields s = Some sl /\ sl_array sl' = sl_array sl) \/
         arrays h !! sl_array sl' = None) /\
      (forall sl2 : slice,
         slice_ok h (Some sl2) ->
         (forall sl : slice, Schema_Fields s = Some sl -> sl_array sl <> sl_array sl2) ->
         slice_ok h' (Some sl2) /\
         slice_elems (Some sl2) h' = slice_elems (Some sl2) h).
Proof.
  induction fs as [|f fs IH]; intros h l s xs Hl Hok Hxs.
  - exists (Schema_Fields s), h. simpl. rewrite app_nil_r.
    split; [done|].
    split; [symmetry; apply insert_id; rewrite Hl; by destruct s|].
    split; [done|]. split; [done|]. split; [done|].
    split; [|done].
    intros sl' E. left. by exists sl'.
  - destruct (AddField_effect h l s f xs Hl Hok Hxs)
      as (s1 & h1 & Hrun & Hsch & Hok1 & Hel1 & Hroom & Hfull & Hkept).
    pose proof (AddField_array_cases h s s1 Hroom Hfull) as Hcases.
    set (st := {| Schema_Fields := Some s1; Schema_Options := Schema_Options s |}) in *.
    assert (Hl1 : schemas h1 !! l = Some st) by (rewrite Hsch; apply lookup_insert_eq).
    destruct (IH h1 l st (xs ++ [f]) Hl1 Hok1 Hel1)
      as (fs' & h' & Hrun' & Hsch' & Hok' & Hel' & Hstay' & Hcases' & Hframe').
    assert (Hstay : forall a : loc, is_Some (arrays h !! a) -> is_Some (arrays h1 !! a)).
    { intros a [b Hb]. destruct (Hkept a b Hb) as (b' & Hb' & _). by exists b'. }
    exists fs', h'. simpl AddFields.
    rewrite (bind_Returns _ _ _ _ _ Hrun).
    split; [done|].
    split; [rewrite Hsch', Hsch; simpl; by rewrite insert_insert_eq|].
    split; [done|].
    split; [by rewrite Hel', <- app_assoc|].
    split; [intros a Ha; by apply Hstay', Hstay|].
    split.
    + intros sl' E. destruct (Hcases' sl' E) as [(sl1 & [= <-] & Harr)|Hnew].
      * rewrite Harr. exact Hcases.
      * right. destruct (arrays h !! sl_array sl') as [b|] eqn:Hb; [|done].
        destruct (Hstay (sl_array sl') (mk_is_Some _ _ Hb)) as [b' Hb'].
        rewrite Hb' in Hnew. discriminate.
    + intros sl2 Hok2 Hapart.
      assert (Hout : forall i : nat,
                 sl_off sl2 <= i < sl_off sl2 + sl_len sl2 ->
                 ~ writes_cell (Schema_Fields s) (sl_array sl2) i).
      { intros i _ Hw. destruct (Schema_Fields s) as [sl|]; [|done].
        destruct Hw as (_ & E & _). by apply (Hapart sl). }
      destruct (slice_kept _ h h1 sl2 Hkept Hok2 Hout) as [Hok2' Hel2'].
      assert (Hapart1 : forall sl : slice, Schema_Fields st = Some sl -> sl_array sl <> sl_array sl2).
      { intros sl [= <-]. destruct Hcases as [(sl0 & E0 & Harr)|Hnew].
        - rewrite Harr. by apply Hapart.
        - intros E. rewrite E in Hnew. simpl in Hok2. by rewrite Hnew in Hok2. }
      destruct (Hframe' sl2 Hok2' Hapart1) as [Hok2'' Hel2''].
      split; [done|]. by rewrite Hel2''.
Qed.

End Footprint.

(** ** What [AddField] leaves alone, and what it does not *)

(** X1: a copy of [m.Fields] taken before [m.AddField(f)] shows after
    the call the elements it showed before: the call does not touch the
    cells the old header covers. *)
Theorem AddField_keeps_earlier_header
    (spare : nat -> nat -> nat) (h : heap) (l : loc) (s : Schema) (f : Field)
    (xs : list Field) :
  schemas h !! l = Some s ->
  slice_ok h (Schema_Fields s) ->
  slice_elems (Schema_Fields s) h = Some xs ->
  exists h' : heap,
    AddField spare (Some l) f h = Returns (Some l) h' /\
    slice_ok h' (Schema_Fields s) /\
    slice_elems (Schema_Fields s) h' = Some xs.
Proof.
  intros Hl Hok Hxs.
  destruct (AddField_effect spare h l s f xs Hl Hok Hxs) as (s' & h' & Hrun & _ & _ & _ & _ & _ & Hkept).
  exists h'. split; [exact Hrun|].
  destruct (Schema_Fields s) as [sl|] eqn:Hfs; [|done].
  rewrite <- Hxs. apply (slice_kept _ h h' sl Hkept Hok).
  intros i Hi (_ & _ & E). lia.
Qed.

Lemma AddField_keeps_earlier_header_witness :
  exists h' : heap,
    AddField doubling (Some 5%positive) (NewTextField "body") sample_heap
    = Returns (Some 5%positive) h' /\
    slice_ok h' (Schema_Fields sample_Schema) /\
    slice_elems (Schema_Fields sample_Schema) h' = Some [NewTagField "tags"].
Proof.
  apply (AddField_keeps_earlier_header doubling sample_heap 5%positive sample_Schema).
  - reflexivity.
  - vm_compute. lia.
  - reflexivity.
Defined.

(** X2: of the arrays that were in the heap, [AddField] writes one
    cell at most, the one just past the end of the receiver's [Fields]
    when they have room. So a slice that fits the heap and does not
    cover that cell shows after the call what it showed before, and
    every other [Schema] struct is as it was. *)
Theorem AddField_frame
    (spare : nat -> nat -> nat) (h : heap) (l : loc) (s : Schema) (f : Field)
    (other : slice) :
  schemas h !! l = Some s ->
  slice_ok h (Schema_Fields s) ->
  slice_ok h (Some other) ->
  (forall sl : slice,
     Schema_Fields s = Some sl ->
     sl_len sl < sl_cap sl ->
     sl_array sl = sl_array other ->
     ~ (sl_off other <= sl_off sl + sl_len sl < sl_off other + sl_len other)) ->
  exists h' : heap,
    AddField spare (Some l) f h = Returns (Some l) h' /\
    slice_ok h' (Some other) /\
    slice_elems (Some other) h' = slice_elems (Some other) h /\
    (forall l' : loc, l' <> l -> schemas h' !! l' = schemas h !! l').
Proof.
  intros Hl Hok Hother Hout.
  destruct (slice_ok_elems h _ Hok) as [xs Hxs].
  destruct (AddField_effect spare h l s f xs Hl Hok Hxs)
    as (s' & h' & Hrun & Hsch & _ & _ & _ & _ & Hkept).
  exists h'. split; [exact Hrun|].
  assert (Hcells : forall i : nat,
             sl_off other <= i < sl_off other + sl_len other ->
             ~ writes_cell (Schema_Fields s) (sl_array other) i).
  { intros i Hi Hw. destruct (Schema_Fields s) as [sl|]; [|done].
    destruct Hw as (Hroom & E & ->). by apply (Hout sl). }
  destruct (slice_kept _ h h' other Hkept Hother Hcells) as [Hok' Hel'].
  repeat split; try done.
  intros l' Hne. rewrite Hsch. by apply lookup_insert_ne.
Qed.

Lemma AddField_frame_witness :
  exists h' : heap,
    AddField doubling (Some 5%positive) (NewTextField "body") sample_heap
    = Returns (Some 5%positive) h' /\
    slice_ok h' (Some {| sl_array := 2%positive; sl_off := 3; sl_len := 1; sl_cap := 1 |}) /\
    slice_elems (Some {| sl_array := 2%positive; sl_off := 3; sl_len := 1; sl_cap := 1 |}) h'
    = slice_elems (Some {| sl_array := 2%positive; sl_off := 3; sl_len := 1; sl_cap := 1 |})
        sample_heap /\
    (forall l' : loc, l' <> 5%positive -> schemas h' !! l' = schemas sample_heap !! l').
Proof.
  apply (AddField_frame doubling sample_heap 5%positive sample_Schema).
  - reflexivity.
  - vm_compute. lia.
  - vm_compute. lia.
  - intros sl [= <-]. vm_compute. lia.
Defined.

(** X3: when the receiver's [Fields] are nil or have no room left,
    [AddField] moves them to an array that was not in the heap and
    writes to none of the arrays that were. *)
Theorem AddField_without_room_allocates
    (spare : nat -> nat -> nat) (h : heap) (l : loc) (s : Schema) (f : Field) :
  schemas h !! l = Some s ->
  slice_ok h (Schema_Fields s) ->
  (forall sl : slice, Schema_Fields s = Some sl -> sl_cap sl <= sl_len sl) ->
  exists (h' : heap) (s' : Schema) (sl' : slice),
    AddField spare (Some l) f h = Returns (Some l) h' /\
    schemas h' !! l = Some s' /\
    Schema_Fields s' = Some sl' /\
    arrays h !! sl_array sl' = None /\
    (forall (a : loc) (b : list Field), arrays h !! a = Some b -> arrays h' !! a = Some b).
Proof.
  intros Hl Hok Hfull.
  destruct (slice_ok_elems h _ Hok) as [xs Hxs].
  destruct (AddField_effect spare h l s f xs Hl Hok Hxs)
    as (sl' & h' & Hrun & Hsch & _ & _ & _ & Hnew & Hkept).
  exists h'. eexists. exists sl'.
  split; [exact Hrun|].
  split; [rewrite Hsch; apply lookup_insert_eq|].
  split; [done|]. split; [by apply Hnew|].
  intros a b Hb. apply (arrays_kept_same _ h h' a b Hkept); [|done].
  intros i Hw. destruct (Schema_Fields s) as [sl|]; [|done].
  destruct Hw as (Hroom & _). specialize (Hfull sl eq_refl). lia.
Qed.

Lemma AddField_without_room_allocates_witness :
  exists (h' : heap) (s' : Schema) (sl' : slice),
    AddField doubling (Some 5%positive) (NewTextField "body") full_shared_heap
    = Returns (Some 5%positive) h' /\
    schemas h' !! 5%positive = Some s' /\
    Schema_Fields s' = Some sl' /\
    arrays full_shared_heap !! sl_array sl' = None /\
    (forall (a : loc) (b : list Field),
       arrays full_shared_heap !! a = Some b -> arrays h' !! a = Some b).
Proof.
  apply (AddField_without_room_allocates doubling full_shared_heap 5%positive full_Schema).
  - reflexivity.
  - vm_compute. lia.
  - intros sl [= <-]. vm_compute. lia.
Defined.

(** ** Two [Schema] structs with one [Fields] header *)

Lemma lookup_snoc_at (xs : list Field) (f : Field) (n : nat) :
  length xs = n -> (xs ++ [f]) !! n = Some f.
Proof. intros <-. by apply list_lookup_middle. Qed.

(** X4: two [Schema] structs that hold the same [Fields] header with
    room to spare (one is a copy of the other) share the cell past its
    end. After [AddField(f)] on the first, its new element is [f];
    after [AddField(g)] on the second, the new element of both is
    [g]. *)
Theorem AddField_on_copies_with_room
    (spare : nat -> nat -> nat) (h : heap) (l1 l2 : loc) (s1 s2 : Schema)
    (sl : slice) (f g : Field) :
  l1 <> l2 ->
  schemas h !! l1 = Some s1 ->
  schemas h !! l2 = Some s2 ->
  Schema_Fields s1 = Some sl ->
  Schema_Fields s2 = Some sl ->
  slice_ok h (Some sl) ->
  sl_len sl < sl_cap sl ->
  exists h1 h2 : heap,
    AddField spare (Some l1) f h = Returns (Some l1) h1 /\
    Fields_index (Some l1) (sl_len sl) h1 = Returns f h1 /\
    AddField spare (Some l2) g h1 = Returns (Some l2) h2 /\
    Fields_index (Some l1) (sl_len sl) h2 = Returns g h2 /\
    Fields_index (Some l2) (sl_len sl) h2 = Returns g h2.
Proof.
  intros Hne Hl1 Hl2 Hf1 Hf2 Hok Hroom.
  destruct (slice_ok_elems h _ Hok) as [xs Hxs].
  pose proof (slice_elems_length h sl xs Hok Hxs) as Hlen.
  assert (Hok1 : slice_ok h (Schema_Fields s1)) by (by rewrite Hf1).
  assert (Hxs1 : slice_elems (Schema_Fields s1) h = Some xs) by (by rewrite Hf1).
  destruct (AddField_effect spare h l1 s1 f xs Hl1 Hok1 Hxs1)
    as (t1 & h1 & Hrun1 & Hsch1 & Hokt1 & Helt1 & Ht1 & _ & Hkept1).
  rewrite (Ht1 sl Hf1 Hroom) in *. clear Ht1.
  assert (Hl2' : schemas h1 !! l2 = Some s2) by (rewrite Hsch1; by rewrite lookup_insert_ne).
  assert (Hout : forall i : nat,
             sl_off sl <= i < sl_off sl + sl_len sl ->
             ~ writes_cell (Schema_Fields s1) (sl_array sl) i).
  { intros i Hi Hw. rewrite Hf1 in Hw. destruct Hw as (_ & _ & E). lia. }
  destruct (slice_kept _ h h1 sl Hkept1 Hok Hout) as [Hok' Hxs'].
  assert (Hok2 : slice_ok h1 (Schema_Fields s2)) by (by rewrite Hf2).
  assert (Hxs2 : slice_elems (Schema_Fields s2) h1 = Some xs) by (by rewrite Hf2, Hxs').
  destruct (AddField_effect spare h1 l2 s2 g xs Hl2' Hok2 Hxs2)
    as (t2 & h2 & Hrun2 & Hsch2 & Hokt2 & Helt2 & Ht2 & _ & _).
  rewrite (Ht2 sl Hf2 Hroom) in *. clear Ht2.
  exists h1, h2.
  split; [exact Hrun1|].
  split.
  { eapply Fields_index_returns; [rewrite Hsch1; apply lookup_insert_eq|done|done|].
    by apply lookup_snoc_at. }
  split; [exact Hrun2|].
  split.
  - eapply Fields_index_returns.
    + rewrite Hsch2, lookup_insert_ne by done. rewrite Hsch1. apply lookup_insert_eq.
    + exact Hokt2.
    + exact Helt2.
    + by apply lookup_snoc_at.
  - eapply Fields_index_returns; [rewrite Hsch2; apply lookup_insert_eq|done|done|].
    by apply lookup_snoc_at.
Qed.

Lemma AddField_on_copies_with_room_witness :
  exists h1 h2 : heap,
    AddField doubling (Some 5%positive) (NewTextField "body") shared_heap
    = Returns (Some 5%positive) h1 /\
    Fields_index (Some 5%positive) (sl_len sample_slice) h1
    = Returns (NewTextField "body") h1 /\
    AddField doubling (Some 6%positive) (NewNumericField "price") h1
    = Returns (Some 6%positive) h2 /\
    Fields_index (Some 5%positive) (sl_len sample_slice) h2
    = Returns (NewNumericField "price") h2 /\
    Fields_index (Some 6%positive) (sl_len sample_slice) h2
    = Returns (NewNumericField "price") h2.
Proof.
  apply (AddField_on_copies_with_room doubling shared_heap 5%positive 6%positive
           sample_Schema sample_Schema sample_slice).
  - lia.
  - reflexivity.
  - reflexivity.
  - reflexivity.
  - reflexivity.
  - vm_compute. lia.
  - vm_compute. lia.
Defined.

(** X5: when the shared header has no room left, the two structs part:
    each [AddField] moves its receiver to a new array, and each struct
    reads back the field it was given. *)
Theorem AddField_on_copies_without_room
    (spare : nat -> nat -> nat) (h : heap) (l1 l2 : loc) (s1 s2 : Schema)
    (sl : slice) (f g : Field) :
  l1 <> l2 ->
  schemas h !! l1 = Some s1 ->
  schemas h !! l2 = Some s2 ->
  Schema_Fields s1 = Some sl ->
  Schema_Fields s2 = Some sl ->
  slice_ok h (Some sl) ->
  sl_cap sl <= sl_len sl ->
  exists h1 h2 : heap,
    AddField spare (Some l1) f h = Returns (Some l1) h1 /\
    AddField spare (Some l2) g h1 = Returns (Some l2) h2 /\
    Fields_index (Some l1) (sl_len sl) h2 = Returns f h2 /\
    Fields_index (Some l2) (sl_len sl) h2 = Returns g h2.
Proof.
  intros Hne Hl1 Hl2 Hf1 Hf2 Hok Hfull.
  destruct (slice_ok_elems h _ Hok) as [xs Hxs].
  pose proof (slice_elems_length h sl xs Hok Hxs) as Hlen.
  assert (Hok1 : slice_ok h (Schema_Fields s1)) by (by rewrite Hf1).
  assert (Hxs1 : slice_elems (Schema_Fields s1) h = Some xs) by (by rewrite Hf1).
  destruct (AddField_effect spare h l1 s1 f xs Hl1 Hok1 Hxs1)
    as (t1 & h1 & Hrun1 & Hsch1 & Hokt1 & Helt1 & _ & _ & Hkept1).
  assert (Hl2' : schemas h1 !! l2 = Some s2) by (rewrite Hsch1; by rewrite lookup_insert_ne).
  assert (Hnone : forall (t : slice) (i : nat), ~ writes_cell (Some sl) (sl_array t) i).
  { intros t i (Hroom & _). lia. }
  rewrite Hf1 in Hkept1.
  destruct (slice_kept _ h h1 sl Hkept1 Hok (fun i _ => Hnone sl i)) as [Hok' Hxs'].
  assert (Hok2 : slice_ok h1 (Schema_Fields s2)) by (by rewrite Hf2).
  assert (Hxs2 : slice_elems (Schema_Fields s2) h1 = Some xs) by (by rewrite Hf2, Hxs').
  destruct (AddField_effect spare h1 l2 s2 g xs Hl2' Hok2 Hxs2)
    as (t2 & h2 & Hrun2 & Hsch2 & Hokt2 & Helt2 & _ & _ & Hkept2).
  rewrite Hf2 in Hkept2.
  destruct (slice_kept _ h1 h2 t1 Hkept2 Hokt1 (fun i _ => Hnone t1 i)) as [Hokt1' Helt1'].
  exists h1, h2.
  split; [exact Hrun1|]. split; [exact Hrun2|].
  split.
  - eapply Fields_index_returns.
    + rewrite Hsch2, lookup_insert_ne by done. rewrite Hsch1. apply lookup_insert_eq.
    + exact Hokt1'.
    + simpl Schema_Fields. rewrite Helt1'. exact Helt1.
    + by apply lookup_snoc_at.
  - eapply Fields_index_returns; [rewrite Hsch2; apply lookup_insert_eq|done|done|].
    by apply lookup_snoc_at.
Qed.

Lemma AddField_on_copies_without_room_witness :
  exists h1 h2 : heap,
    AddField doubling (Some 5%positive) (NewTextField "body") full_shared_heap
    = Returns (Some 5%positive) h1 /\
    AddField doubling (Some 6%positive) (NewNumericField "price") h1
    = Returns (Some 6%positive) h2 /\
    Fields_index (Some 5%positive) (sl_len full_slice) h2
    = Returns (NewTextField "body") h2 /\
    Fields_index (Some 6%positive) (sl_len full_slice) h2
    = Returns (NewNumericField "price") h2.
Proof.
  apply (AddField_on_copies_without_room doubling full_shared_heap 5%positive 6%positive
           full_Schema full_Schema full_slice).
  - lia.
  - reflexivity.
  - reflexivity.
  - reflexivity.
  - reflexivity.
  - vm_compute. lia.
  - vm_compute. lia.
Defined.

(** ** Heaps built with the builder *)

Lemma NewSchema_keeps_heap_ok (opts : Options) (h h' : heap) (m : ptr) :
  heap_ok h -> NewSchema opts h = Returns m h' -> heap_ok h'.
Proof.
  intros Hh. rewrite NewSchema_returns. intros [= _ <-].
  unfold heap_ok. simpl. apply map_Forall_insert_2.
  - simpl. rewrite lookup_insert_eq. simpl. lia.
  - eapply map_Forall_impl; [exact Hh|]. intros l s Hs.
    eapply (slice_ok_kept (fun _ _ => False) h); [|exact Hs].
    apply (arrays_kept_new_array _ h []).
Qed.

Lemma AddField_keeps_heap_ok
    (spare : nat -> nat -> nat) (h h' : heap) (l : loc) (f : Field) (m : ptr) :
  heap_ok h ->
  is_Some (schemas h !! l) ->
  AddField spare (Some l) f h = Returns m h' ->
  heap_ok h'.
Proof.
  intros Hh [s Hl] Hrun.
  pose proof (Hh l s Hl) as Hok. simpl in Hok.
  destruct (slice_ok_elems h _ Hok) as [xs Hxs].
  destruct (AddField_effect spare h l s f xs Hl Hok Hxs)
    as (s' & h1 & Hrun1 & Hsch & Hok' & _ & _ & _ & Hkept).
  rewrite Hrun1 in Hrun. injection Hrun as _ <-.
  unfold heap_ok. rewrite Hsch. apply map_Forall_insert_2; [done|].
  eapply map_Forall_impl; [exact Hh|]. intros l0 s0 Hs0.
  by apply (slice_ok_kept _ h h1 _ Hkept).
Qed.

(** X6: on a heap built from the empty one with [NewSchema] and
    [AddField] alone, every [Schema] has [Fields] that fit the heap,
    and [AddField] on any of them returns its receiver, for every
    field, and leaves such a heap again: it neither panics nor reads a
    reference the heap lacks. *)
Theorem built_heap_never_fails
    (spare : nat -> nat -> nat) (h : heap) (l : loc) (f : Field) :
  built spare h ->
  is_Some (schemas h !! l) ->
  heap_ok h /\
  exists h' : heap,
    AddField spare (Some l) f h = Returns (Some l) h' /\
    built spare h' /\
    heap_ok h'.
Proof.
  intros Hb Hl.
  assert (Hh : heap_ok h).
  { clear Hl. induction Hb as [|h0 h1 opts m _ IH Hrun|h0 h1 l0 f0 m _ IH Hl0 Hrun].
    - apply map_Forall_empty.
    - by apply (NewSchema_keeps_heap_ok opts h0 h1 m).
    - by apply (AddField_keeps_heap_ok spare h0 h1 l0 f0 m). }
  split; [exact Hh|].
  destruct Hl as [s Hl].
  pose proof (Hh l s Hl) as Hok. simpl in Hok.
  destruct (slice_ok_elems h _ Hok) as [xs Hxs].
  destruct (AddField_returns spare h l s f xs Hl Hok Hxs) as (s' & h' & Hrun & _).
  exists h'. split; [exact Hrun|]. split.
  - by apply (built_AddField spare h h' l f (Some l)).
  - by apply (AddField_keeps_heap_ok spare h h' l f (Some l)).
Qed.

Lemma built_heap_never_fails_witness :
  heap_ok
    {| schemas :=
         {[ 1%positive :=
              {| Schema_Fields :=
                   Some {| sl_array := 1%positive; sl_off := 0; sl_len := 0; sl_cap := 0 |};
                 Schema_Options := zero_Options |} ]};
       arrays := {[ 1%positive := [] ]} |} /\
  exists h' : heap,
    AddField doubling (Some 1%positive) (NewTextField "body")
      {| schemas :=
           {[ 1%positive :=
                {| Schema_Fields :=
                     Some {| sl_array := 1%positive; sl_off := 0; sl_len := 0; sl_cap := 0 |};
                   Schema_Options := zero_Options |} ]};
         arrays := {[ 1%positive := [] ]} |}
    = Returns (Some 1%positive) h' /\
    built doubling h' /\
    heap_ok h'.
Proof.
  apply (built_heap_never_fails doubling _ 1%positive (NewTextField "body")).
  - apply (built_NewSchema doubling empty_heap _ sample_Options (Some 1%positive)).
    + apply built_empty.
    + vm_compute. reflexivity.
  - vm_compute. eexists. reflexivity.
Defined.

(** ** Building a schema from [NewSchema] *)

(** X7: [NewSchema(opts)] followed by any chain of [AddField] calls
    returns a pointer to a new [Schema] that shows exactly the fields
    added, in call order, and has the zero [Options]; every [Schema]
    struct that was in the heap is as it was, and every slice that
    fitted the heap shows what it showed. *)
Theorem NewSchema_then_AddFields
    (spare : nat -> nat -> nat) (opts : Options) (fs : list Field) (h : heap) :
  exists (l : loc) (h' : heap) (s' : Schema),
    (m <- NewSchema opts ;; AddFields spare m fs) h = Returns (Some l) h' /\
    schemas h !! l = None /\
    schemas h' !! l = Some s' /\
    Schema_Options s' = zero_Options /\
    slice_elems (Schema_Fields s') h' = Some fs /\
    (forall l' : loc, l' <> l -> schemas h' !! l' = schemas h !! l') /\
    (forall other : slice,
       slice_ok h (Some other) ->
       slice_ok h' (Some other) /\
       slice_elems (Some other) h' = slice_elems (Some other) h).
Proof.
  rewrite (bind_Returns _ _ _ _ _ (NewSchema_returns opts h)).
  set (l := fresh (dom (schemas h))).
  set (a0 := fresh (dom (arrays h))).
  set (e := {| sl_array := a0; sl_off := 0; sl_len := 0; sl_cap := 0 |}).
  set (s0 := {| Schema_Fields := Some e; Schema_Options := zero_Options |}).
  set (h0 := {| schemas := <[l := s0]> (schemas h); arrays := <[a0 := []]> (arrays h) |}).
  assert (Hl0 : schemas h0 !! l = Some s0) by apply lookup_insert_eq.
  assert (Hok0 : slice_ok h0 (Schema_Fields s0)).
  { simpl. rewrite lookup_insert_eq. simpl. lia. }
  assert (Hel0 : slice_elems (Schema_Fields s0) h0 = Some []).
  { simpl. by rewrite lookup_insert_eq. }
  destruct (AddFields_effect spare fs h0 l s0 [] Hl0 Hok0 Hel0)
    as (fs' & h' & Hrun & Hsch & _ & Hel & _ & _ & Hframe).
  exists l, h'. eexists.
  split; [exact Hrun|].
  split; [apply fresh_Schema_unused|].
  split; [rewrite Hsch; apply lookup_insert_eq|].
  split; [done|]. split; [exact Hel|].
  split.
  - intros l' Hne. rewrite Hsch, lookup_insert_ne by done. by apply lookup_insert_ne.
  - intros other Hother.
    assert (Hne : a0 <> sl_array other).
    { intros E. simpl in Hother. rewrite <- E in Hother.
      unfold a0 in Hother. by rewrite fresh_array_unused in Hother. }
    assert (Hother0 : slice_ok h0 (Some other)).
    { simpl. rewrite lookup_insert_ne by done. exact Hother. }
    destruct (Hframe other Hother0) as [Hok' Hel'].
    { by intros sl [= <-]. }
    split; [done|]. rewrite Hel'. simpl. by rewrite lookup_insert_ne.
Qed.

(** X8: two schemas made by two [NewSchema] calls do not share their
    fields: after a chain of [AddField] calls on the first and one on
    the second, each shows the fields it was given and no others. *)
Theorem NewSchema_twice_independent
    (spare : nat -> nat -> nat) (o1 o2 : Options) (fs1 fs2 : list Field) (h : heap) :
  exists (l1 l2 : loc) (h' : heap) (s1 s2 : Schema),
    (m1 <- NewSchema o1 ;;
     m2 <- NewSchema o2 ;;
     AddFields spare m1 fs1 ;;;
     AddFields spare m2 fs2 ;;;
     ret (m1, m2)) h = Returns (Some l1, Some l2) h' /\
    l1 <> l2 /\
    schemas h' !! l1 = Some s1 /\
    schemas h' !! l2 = Some s2 /\
    slice_elems (Schema_Fields s1) h' = Some fs1 /\
    slice_elems (Schema_Fields s2) h' = Some fs2.
Proof.
  rewrite (bind_Returns _ _ _ _ _ (NewSchema_returns o1 h)).
  set (l1 := fresh (dom (schemas h))).
  set (a1 := fresh (dom (arrays h))).
  set (e1 := {| sl_array := a1; sl_off := 0; sl_len := 0; sl_cap := 0 |}).
  set (t1 := {| Schema_Fields := Some e1; Schema_Options := zero_Options |}).
  set (h1 := {| schemas := <[l1 := t1]> (schemas h); arrays := <[a1 := []]> (arrays h) |}).
  rewrite (bind_Returns _ _ _ _ _ (NewSchema_returns o2 h1)).
  set (l2 := fresh (dom (schemas h1))).
  set (a2 := fresh (dom (arrays h1))).
  set (e2 := {| sl_array := a2; sl_off := 0; sl_len := 0; sl_cap := 0 |}).
  set (t2 := {| Schema_Fields := Some e2; Schema_Options := zero_Options |}).
  set (h2 := {| schemas := <[l2 := t2]> (schemas h1); arrays := <[a2 := []]> (arrays h1) |}).
  assert (Hl : l1 <> l2).
  { intros E. pose proof (fresh_Schema_unused h1) as Hn. fold l2 in Hn.
    rewrite <- E in Hn. simpl in Hn. by rewrite lookup_insert_eq in Hn. }
  assert (Ha : a1 <> a2).
  { intros E. pose proof (fresh_array_unused h1) as Hn. fold a2 in Hn.
    rewrite <- E in Hn. simpl in Hn. by rewrite lookup_insert_eq in Hn. }
  assert (Hl1 : schemas h2 !! l1 = Some t1).
  { simpl. rewrite lookup_insert_ne by done. apply lookup_insert_eq. }
  assert (Hok1 : slice_ok h2 (Schema_Fields t1)).
  { simpl. rewrite lookup_insert_ne by done. rewrite lookup_insert_eq. simpl. lia. }
  assert (Hel1 : slice_elems (Schema_Fields t1) h2 = Some []).
  { simpl. rewrite lookup_insert_ne by done. by rewrite lookup_insert_eq. }
  assert (Hok2 : slice_ok h2 (Some e2)).
  { simpl. rewrite lookup_insert_eq. simpl. lia. }
  assert (Hel2 : slice_elems (Some e2) h2 = Some []).
  { simpl. by rewrite lookup_insert_eq. }
  destruct (AddFields_effect spare fs1 h2 l1 t1 [] Hl1 Hok1 Hel1)
    as (r1 & h3 & Hrun3 & Hsch3 & Hokr1 & Helr1 & _ & Hcases & Hframe3).
  destruct (Hframe3 e2 Hok2) as [Hok2' Hel2'].
  { intros sl [= <-]. exact Ha. }
  rewrite Hel2 in Hel2'.
  assert (Hl2 : schemas h3 !! l2 = Some t2).
  { rewrite Hsch3, lookup_insert_ne by done. apply lookup_insert_eq. }
  destruct (AddFields_effect spare fs2 h3 l2 t2 [] Hl2 Hok2' Hel2')
    as (r2 & h4 & Hrun4 & Hsch4 & _ & Helr2 & _ & _ & Hframe4).
  exists l1, l2, h4. eexists _, _.
  split.
  { rewrite (bind_Returns _ _ _ _ _ Hrun3), (bind_Returns _ _ _ _ _ Hrun4). reflexivity. }
  split; [done|].
  split; [rewrite Hsch4, lookup_insert_ne by done; rewrite Hsch3; apply lookup_insert_eq|].
  split; [rewrite Hsch4; apply lookup_insert_eq|].
  split; [|exact Helr2]. simpl Schema_Fields.
  destruct r1 as [sl1|]; [|exact Helr1].
  destruct (Hframe4 sl1 Hokr1) as [_ Hkeep].
  - intros sl [= <-]. intros E.
    destruct (Hcases sl1 eq_refl) as [(sl & [= <-] & Harr)|Hnew].
    + apply Ha. rewrite <- E in Harr. simpl in Harr. congruence.
    + rewrite <- E in Hnew. simpl in Hnew. by rewrite lookup_insert_eq in Hnew.
  - by rewrite Hkeep.
Qed.

(** X9: a chain of [AddField] calls makes exactly as many elements
    visible as it was given fields: on a [Schema] that showed [xs],
    after adding [fs], the index expression [Fields[i]] panics with
    index out of range for every [i] from [len xs + len fs] on. *)
Theorem AddField_index_out_of_range
    (spare : nat -> nat -> nat) (h : heap) (l : loc) (s : Schema)
    (xs fs : list Field) (i : nat) :
  schemas h !! l = Some s ->
  slice_ok h (Schema_Fields s) ->
  slice_elems (Schema_Fields s) h = Some xs ->
  length xs + length fs <= i ->
  exists h' : heap,
    AddFields spare (Some l) fs h = Returns (Some l) h' /\
    Fields_index (Some l) i h' = Panics index_out_of_range.
Proof.
  intros Hl Hok Hxs Hi.
  destruct (AddFields_returns spare fs h l s xs Hl Hok Hxs) as (fs' & h' & Hrun & Hsch & Hok' & Hel).
  exists h'. split; [exact Hrun|].
  unfold Fields_index.
  assert (Hl' : schemas h' !! l
                = Some {| Schema_Fields := fs'; Schema_Options := Schema_Options s |}).
  { rewrite Hsch. apply lookup_insert_eq. }
  rewrite (bind_Returns _ _ _ _ _ (load_Fields_returns h' l _ Hl')). simpl.
  destruct fs' as [sl|]; [|done].
  pose proof (slice_elems_length h' sl _ Hok' Hel) as Hlen.
  rewrite length_app in Hlen.
  by rewrite decide_False by lia.
Qed.

Lemma AddField_index_out_of_range_witness :
  exists h' : heap,
    AddFields doubling (Some 5%positive) [NewTextField "body"] sample_heap
    = Returns (Some 5%positive) h' /\
    Fields_index (Some 5%positive) 2 h' = Panics index_out_of_range.
Proof.
  apply (AddField_index_out_of_range doubling sample_heap 5%positive sample_Schema
           [NewTagField "tags"] [NewTextField "body"] 2).
  - reflexivity.
  - vm_compute. lia.
  - reflexivity.
  - simpl. lia.
Defined.

(** ** More on the constructors *)

(** X10: the [Schema] that [NewSchema(opts)] returns has [Options]
    equal to [opts] exactly when [opts] is [DefaultOptions]: a flag
    that is set, or a stop-word list that is not nil, even an empty
    one, does not reach the result. *)
Theorem NewSchema_Options_match_iff_default (opts : Options) (h : heap) :
  exists (l : loc) (h' : heap) (s' : Schema),
    NewSchema opts h = Returns (Some l) h' /\
    schemas h' !! l = Some s' /\
    (Schema_Options s' = opts <-> opts = DefaultOptions).
Proof.
  rewrite NewSchema_returns. eexists _, _, _.
  split; [reflexivity|]. simpl.
  split; [apply lookup_insert_eq|]. simpl.
  split; intros E.
  - by rewrite <- E.
  - by rewrite E.
Qed.

(** X11: the constructors that take an options struct never leave the
    options slot nil, not even for the zero struct; so
    [NewTextFieldOptions] and [NewNumericFieldOptions] never return the
    field [NewTextField] or [NewNumericField] returns, whatever the
    names and options. *)
Theorem options_constructors_never_nil
    (name name' : string)
    (topts : TextFieldOptions) (gopts : TagFieldOptions) (nopts : NumericFieldOptions) :
  Field_Options (NewTextFieldOptions name topts) <> any_nil /\
  Field_Options (NewTagFieldOptions name gopts) <> any_nil /\
  Field_Options (NewNumericFieldOptions name nopts) <> any_nil /\
  NewTextFieldOptions name topts <> NewTextField name' /\
  NewNumericFieldOptions name nopts <> NewNumericField name'.
Proof. by repeat split. Qed.

(** X12: the short constructors for tags and sortable numerics, which
    the source writes out on their own, return what the constructors
    with options return on the default separator [','] and on
    [Sortable] alone. *)
Theorem short_constructors_agree (name : string) :
  NewTagField name =
    NewTagFieldOptions name
      {| Tag_Separator := comma; Tag_NoIndex := false; Tag_Sortable := false |} /\
  NewSortableNumericField name =
    NewNumericFieldOptions name {| Numeric_Sortable := true; Numeric_NoIndex := false |}.
Proof. by split. Qed.
